(** * Image-Protector-App: the LSB steganography codec of [main.py]

    A shallow embedding of the steganographic core of [main.py]
    ([xor_cipher], [bytes_to_bits], [bits_to_bytes], [stego_hide],
    [stego_extract], [clean_lsb]), of [get_hash] and of the loops of the
    [clean] command, and the properties of its specification.

    Conventions of the embedding.
    - A Python [int] is a [Z]; a [bytes] object is a [list Z] whose elements
      lie in [range(256)] ([bytes_ok]); a bit list is a [list Z] of 0s and 1s
      ([bits_ok]).  Lengths, pixel coordinates and loop counters are [nat].
    - A text is the [string] of its UTF-8 encoding: [s.encode('utf-8')]
      reads the bytes of the representation and [b.decode('utf-8')] succeeds
      exactly on well-formed UTF-8.  A Python [str] given to [stego_hide] or
      [stego_extract] is a [py_str]: such a text, or a [str] that holds a lone
      surrogate, which [encode('utf-8')] refuses with [UnicodeEncodeError].
      [xor_cipher] is the function on a password that encodes, and
      [xor_cipher_call] a call of it with any [str].
    - The file system is a finite map from files to images: a key stands
      for the file that a path names, and the image is the RGB pixel grid
      that [Image.open(path).convert('RGB')] gives.  A file that is not
      there makes [Image.open] raise.
    - [img.save(path)] is a parameter [img_save] of the functions that
      call it, a function of the path, the image and the file system that
      gives whether the call returns or raises and the file system it
      leaves: Pillow picks the format from the extension of the path, so a
      call may raise (an extension it does not know, a directory that is not
      there) and may store other pixels than those it was given (JPEG).
      Nothing is assumed of it but what a statement says ([saves_exactly],
      [writes_only_its_path]).
    - [print] is not modelled. *)

From Stdlib Require Import ZArith Ascii String List Lia Bool.
From stdpp Require Import base gmap strings list.

Local Open Scope Z_scope.

(** ** Bytes, bits and text *)

Definition bytes_ok (data : list Z) : Prop := Forall (fun b => 0 <= b < 256) data.
Definition bits_ok (bits : list Z) : Prop := Forall (fun b => b = 0 \/ b = 1) bits.

(** [s.encode('utf-8')]: the bytes of the representation. *)
Definition encode_utf8 (s : string) : list Z :=
  map (fun c => Z.of_N (N_of_ascii c)) (list_ascii_of_string s).

(** The [str] whose encoding is the byte sequence [data]. *)
Definition str_of_bytes (data : list Z) : string :=
  string_of_list_ascii (map (fun b => ascii_of_N (Z.to_N b)) data).

Definition in_range (lo hi b : Z) : bool := (lo <=? b) && (b <=? hi).
Definition cont (b : Z) : bool := in_range 128 191 b.

(** Well-formed UTF-8 byte sequences (the strict decoder: no overlong forms,
    no surrogates, nothing above U+10FFFF). *)
Fixpoint valid_utf8 (data : list Z) : bool :=
  match data with
  | [] => true
  | b0 :: t0 =>
    if in_range 0 127 b0 then valid_utf8 t0
    else match t0 with
    | [] => false
    | b1 :: t1 =>
      if in_range 194 223 b0 then cont b1 && valid_utf8 t1
      else match t1 with
      | [] => false
      | b2 :: t2 =>
        if in_range 224 239 b0 then
          (if b0 =? 224 then in_range 160 191 b1
           else if b0 =? 237 then in_range 128 159 b1
           else cont b1) && cont b2 && valid_utf8 t2
        else match t2 with
        | [] => false
        | b3 :: t3 =>
          if in_range 240 244 b0 then
            (if b0 =? 240 then in_range 144 191 b1
             else if b0 =? 244 then in_range 128 143 b1
             else cont b1) && cont b2 && cont b3 && valid_utf8 t3
          else false
        end
      end
    end
  end.

(** [data.decode('utf-8')]; [None] stands for [UnicodeDecodeError]. *)
Definition decode_utf8 (data : list Z) : option string :=
  if valid_utf8 data then Some (str_of_bytes data) else None.

(** ** [xor_cipher] *)

(** [zip(data, cycle(key))] followed by the XOR of each pair.  [cur] is what
    is left of the current pass over [key]; once it is used up [cycle]
    replays the saved copy, and yields nothing when that copy is empty. *)
Fixpoint xor_cycle (data cur key : list Z) : list Z :=
  match data with
  | [] => []
  | a :: data' =>
    match cur with
    | b :: cur' => Z.lxor a b :: xor_cycle data' cur' key
    | [] =>
      match key with
      | b :: cur' => Z.lxor a b :: xor_cycle data' cur' key
      | [] => []
      end
    end
  end.

Definition xor_cipher (data : list Z) (password : string) : list Z :=
  match password with
  | EmptyString => data
  | _ => let key := encode_utf8 password in xor_cycle data key key
  end.

(** ** [bytes_to_bits] and [bits_to_bytes] *)

(** [[int(b) for b in format(byte, '08b')]]: the eight binary digits of a
    byte, most significant first. *)
Definition format_08b (byte : Z) : list Z :=
  map (fun i => (byte / 2 ^ i) mod 2) [7; 6; 5; 4; 3; 2; 1; 0].

Fixpoint bytes_to_bits (data : list Z) : list Z :=
  match data with
  | [] => []
  | byte :: data' => format_08b byte ++ bytes_to_bits data'
  end.

(** [int(''.join(map(str, chunk)), 2)] for a chunk of 0s and 1s. *)
Definition int_base2 (chunk : list Z) : Z :=
  fold_left (fun acc b => 2 * acc + b) chunk 0.

(** [range(0, n, 8)]. *)
Definition range8 (n : nat) : list nat :=
  map (fun k => (8 * k)%nat) (seq 0 ((n + 7) / 8)).

(** The loop of [bits_to_bytes] over the start indices [starts], with
    [byte_values] as accumulator; a chunk shorter than 8 leaves the loop. *)
Fixpoint bits_to_bytes_loop (bits : list Z) (starts : list nat)
    (byte_values : list Z) : list Z :=
  match starts with
  | [] => byte_values
  | i :: starts' =>
    let byte_chunk := take 8 (drop i bits) in
    if (length byte_chunk <? 8)%nat then byte_values
    else bits_to_bytes_loop bits starts' (byte_values ++ [int_base2 byte_chunk])
  end.

Definition bits_to_bytes (bits : list Z) : list Z :=
  bits_to_bytes_loop bits (range8 (length bits)) [].

(** ** Images and the file system *)

Definition pixel : Type := Z * Z * Z.

(** What [img.load()] gives: [pixels[x, y]] for [x < width], [y < height]. *)
Definition pixel_access : Type := nat -> nat -> pixel.

Record image : Type := Image {
  width : nat;
  height : nat;
  load : pixel_access
}.

(** [pixels[x, y] = v]. *)
Definition set_pixel (pixels : pixel_access) (x y : nat) (v : pixel) : pixel_access :=
  fun x' y' => if ((x' =? x) && (y' =? y))%nat then v else pixels x' y'.

(** The exceptions of the calls that are modelled: [Image.open] on a file
    that is not there, the capacity test of [stego_hide] and an extension
    that [img.save] does not know ([ValueError]), [encode('utf-8')] on a lone
    surrogate, and any other failure of [img.save] ([OSError]). *)
Inductive exn : Type :=
  | FileNotFoundError
  | ValueError (msg : string)
  | UnicodeEncodeError
  | OSError (msg : string).

Inductive outcome (A : Type) : Type :=
  | Returns (a : A)
  | Raises (e : exn).
Arguments Returns {A} a.
Arguments Raises {A} e.

(** A Python [str]: a text, given by its UTF-8 encoding, or a [str] that
    holds a lone surrogate (it is not empty, and it has no encoding). *)
Inductive py_str : Type :=
  | Text (utf8 : string)
  | LoneSurrogate.

(** [s.encode('utf-8')] *)
Definition encode (s : py_str) : outcome (list Z) :=
  match s with
  | Text utf8 => Returns (encode_utf8 utf8)
  | LoneSurrogate => Raises UnicodeEncodeError
  end.

(** A call [xor_cipher(data, password)]: [password.encode('utf-8')] raises
    when the password has no encoding. *)
Definition xor_cipher_call (data : list Z) (password : py_str) : outcome (list Z) :=
  match password with
  | Text utf8 => Returns (xor_cipher data utf8)
  | LoneSurrogate => Raises UnicodeEncodeError
  end.

(** [if password: data = xor_cipher(data, password)] *)
Definition cipher_if_password (data : list Z) (password : py_str) : outcome (list Z) :=
  match password with
  | Text EmptyString => Returns data
  | _ => xor_cipher_call data password
  end.

(** What [img.save(path)] does with an image on a file system: whether it
    returns or raises, and the file system that it leaves. *)
Definition saver : Type :=
  string -> image -> gmap string image -> outcome unit * gmap string image.

(** [b'$STOP$'] *)
Definition stop_marker : list Z := [36; 83; 84; 79; 80; 36].

Definition max_bytes : nat := 4096.
Definition max_bits : nat := max_bytes * 8.

Definition capacity_message : string :=
  "Слишком большие данные для этого изображения.".
Definition wrong_password_message : string :=
  "Ошибка: Неправильный пароль или повреждённые данные.".
Definition not_found_message : string :=
  "Не найдено скрытых данных.".

(** ** [stego_hide] *)

(** The inner loop [for x in range(width)] of [stego_hide] on row [y], over
    the columns [xs] still to visit; the [else] branch is the [break]. *)
Fixpoint hide_row (bits : list Z) (y : nat) (xs : list nat)
    (pixels : pixel_access) (idx : nat) : pixel_access * nat :=
  match xs with
  | [] => (pixels, idx)
  | x :: xs' =>
    if (idx <? length bits)%nat then
      let '(r, g, b) := pixels x y in
      let new_b := Z.lor (Z.land b (Z.lnot 1)) (bits !!! idx) in
      hide_row bits y xs' (set_pixel pixels x y (r, g, new_b)) (S idx)
    else (pixels, idx)
  end.

(** The outer loop [for y in range(height)]. *)
Fixpoint hide_rows (bits : list Z) (w : nat) (ys : list nat)
    (pixels : pixel_access) (idx : nat) : pixel_access * nat :=
  match ys with
  | [] => (pixels, idx)
  | y :: ys' =>
    let '(pixels', idx') := hide_row bits y (seq 0 w) pixels idx in
    hide_rows bits w ys' pixels' idx'
  end.

(** Both loops, from [idx = 0]: the image after the mutation. *)
Definition hide_pixels (bits : list Z) (img : image) : image :=
  Image (width img) (height img)
    (fst (hide_rows bits (width img) (seq 0 (height img)) (load img) 0)).

Definition stego_hide (img_save : saver) (input_path output_path : string)
    (secret_text password : py_str)
    (fs : gmap string image) : outcome unit * gmap string image :=
  match encode secret_text with
  | Raises e => (Raises e, fs)
  | Returns data_bytes =>
    match cipher_if_password data_bytes password with
    | Raises e => (Raises e, fs)
    | Returns data_bytes =>
      let full_payload := data_bytes ++ stop_marker in
      let bits := bytes_to_bits full_payload in
      match fs !! input_path with
      | None => (Raises FileNotFoundError, fs)
      | Some img =>
        if (width img * height img <? length bits)%nat
        then (Raises (ValueError capacity_message), fs)
        else img_save output_path (hide_pixels bits img) fs
      end
    end
  end.

(** ** [stego_extract] *)

(** The inner loop of [stego_extract] on row [y]. *)
Fixpoint extract_row (pixels : pixel_access) (limit y : nat) (xs : list nat)
    (extracted_bits : list Z) (bits_count : nat) : list Z * nat :=
  match xs with
  | [] => (extracted_bits, bits_count)
  | x :: xs' =>
    if (limit <=? bits_count)%nat then (extracted_bits, bits_count)
    else
      let '(r, g, b) := pixels x y in
      extract_row pixels limit y xs' (extracted_bits ++ [Z.land b 1]) (S bits_count)
  end.

(** The outer loop of [stego_extract]. *)
Fixpoint extract_rows (pixels : pixel_access) (limit w : nat) (ys : list nat)
    (extracted_bits : list Z) (bits_count : nat) : list Z * nat :=
  match ys with
  | [] => (extracted_bits, bits_count)
  | y :: ys' =>
    if (limit <=? bits_count)%nat then (extracted_bits, bits_count)
    else
      let '(extracted_bits', bits_count') :=
        extract_row pixels limit y (seq 0 w) extracted_bits bits_count in
      extract_rows pixels limit w ys' extracted_bits' bits_count'
  end.

(** [extracted_bits] when the two loops are left. *)
Definition extract_bits (img : image) : list Z :=
  fst (extract_rows (load img) max_bits (width img) (seq 0 (height img)) [] 0).

(** [s.startswith(prefix)] *)
Fixpoint startswith (s prefix : list Z) : bool :=
  match prefix, s with
  | [], _ => true
  | _ :: _, [] => false
  | p :: prefix', c :: s' => (c =? p) && startswith s' prefix'
  end.

(** [sub in s] *)
Fixpoint bytes_in (sub s : list Z) : bool :=
  startswith s sub ||
  match s with
  | [] => false
  | _ :: s' => bytes_in sub s'
  end.

(** [s.split(sep)[0]] for a non-empty [sep]: what precedes the first
    occurrence of [sep], all of [s] when there is none. *)
Fixpoint split_head (s sep : list Z) : list Z :=
  if startswith s sep then []
  else match s with
       | [] => []
       | c :: s' => c :: split_head s' sep
       end.

Definition stego_extract (input_path : string) (password : py_str)
    (fs : gmap string image) : outcome string :=
  match fs !! input_path with
  | None => Raises FileNotFoundError
  | Some img =>
    let raw_data := bits_to_bytes (extract_bits img) in
    if bytes_in stop_marker raw_data then
      let secret_bytes := split_head raw_data stop_marker in
      match cipher_if_password secret_bytes password with
      | Raises e => Raises e
      | Returns secret_bytes =>
        match decode_utf8 secret_bytes with
        | Some text => Returns text
        | None => Returns wrong_password_message
        end
      end
    else Returns not_found_message
  end.

(** ** [clean_lsb] *)

Fixpoint clean_row (y : nat) (xs : list nat) (pixels : pixel_access) : pixel_access :=
  match xs with
  | [] => pixels
  | x :: xs' =>
    let '(r, g, b) := pixels x y in
    clean_row y xs' (set_pixel pixels x y (r, g, Z.land b (Z.lnot 1)))
  end.

Fixpoint clean_rows (w : nat) (ys : list nat) (pixels : pixel_access) : pixel_access :=
  match ys with
  | [] => pixels
  | y :: ys' => clean_rows w ys' (clean_row y (seq 0 w) pixels)
  end.

Definition clean_pixels (img : image) : image :=
  Image (width img) (height img)
    (clean_rows (width img) (seq 0 (height img)) (load img)).

Definition clean_lsb (img_save : saver) (input_path output_path : string)
    (fs : gmap string image) : outcome unit * gmap string image :=
  match fs !! input_path with
  | None => (Raises FileNotFoundError, fs)
  | Some img => img_save output_path (clean_pixels img) fs
  end.

(** ** Vocabulary of the specification *)

Definition blue (p : pixel) : Z := snd p.
Definition red (p : pixel) : Z := fst (fst p).
Definition green (p : pixel) : Z := snd (fst p).

(** The [i]-th pixel in row-major order (y outer, x inner, top-left origin). *)
Definition nth_pixel (img : image) (i : nat) : pixel :=
  load img (i mod width img)%nat (i / width img)%nat.

(** The bytes [stego_hide] frames: the ciphered payload. *)
Definition ciphered (secret_text password : string) : list Z :=
  xor_cipher (encode_utf8 secret_text) password.

(** [full_payload] in [stego_hide]: the ciphered payload, then the sentinel. *)
Definition full_payload (secret_text password : string) : list Z :=
  ciphered secret_text password ++ stop_marker.

(** A uniformly coloured image, as [Image.new('RGB', (w, h), color)]. *)
Definition Image_new (w h : nat) (color : pixel) : image :=
  Image w h (fun _ _ => color).

(** The lowest bit of a channel value, [v & 1]. *)
Definition lowest_bit (v : Z) : Z := Z.land v 1.

(** A pixel whose blue channel has its lowest bit overwritten with [bit]. *)
Definition put_bit (p : pixel) (bit : Z) : pixel :=
  let '(r, g, b) := p in (r, g, Z.lor (Z.land b (Z.lnot 1)) bit).

(** A pixel whose blue channel has its lowest bit forced to 0. *)
Definition clear_bit (p : pixel) : pixel :=
  let '(r, g, b) := p in (r, g, Z.land b (Z.lnot 1)).

(** The lowest blue bits of the first [n] pixels in row-major order. *)
Definition blue_bits (img : image) (n : nat) : list Z :=
  map (fun i => lowest_bit (blue (nth_pixel img i))) (seq 0 n).

(** The lowest blue bits of row [y], left to right. *)
Definition row_bits (pixels : pixel_access) (w y : nat) : list Z :=
  map (fun x => lowest_bit (blue (pixels x y))) (seq 0 w).


(** The carrier of the test-suite, scaled down: a red 12 x 8 image (96 bits
    of capacity) stored under [in.png]. *)
Definition red_carrier : image := Image_new 12 8 (255, 0, 0).
Definition test_files : gmap string image := {[ "in.png" := red_carrier ]}.



(** ** [get_hash] *)

(** What a call of [get_hash] ends in: the digest it returns, or the
    exception it raises. *)
Inductive hash_outcome : Type :=
  | Digest (sha256 : string)
  | NoSuchFile
  | UnboundLocalError.

(** [iter(lambda: f.read(4096), b'')]: the blocks of at most 4096 bytes read
    from what is left of the file, up to the first empty read.  Every block
    but the empty one shortens what is left, so [fuel] above its length is
    never used up. *)
Fixpoint read_blocks (fuel : nat) (rest : list Z) : list (list Z) :=
  match fuel with
  | O => []
  | S fuel' =>
    match take 4096 rest with
    | [] => []
    | byte_block => byte_block :: read_blocks fuel' (drop 4096 rest)
    end
  end.

Section Hashing.
(** [hashlib.sha256]: the hexadecimal digest of the bytes fed to the hash
    object so far, feeding [a] then [b] being feeding [a + b]. *)
Variable hexdigest : list Z -> string.

(** The loop of [get_hash]: [fed] is what [sha256_hash] was updated with,
    [sha256] the local variable of that name, unbound ([None]) until the
    body of the loop has run once. *)
Fixpoint hash_blocks (blocks : list (list Z)) (fed : list Z)
    (sha256 : option string) : option string :=
  match blocks with
  | [] => sha256
  | byte_block :: blocks' =>
    let fed' := fed ++ byte_block in
    hash_blocks blocks' fed' (Some (hexdigest fed'))
  end.

(** [disk] gives the bytes of each file that [open(file_path, 'rb')] finds. *)
Definition get_hash (file_path : string) (disk : gmap string (list Z)) : hash_outcome :=
  match disk !! file_path with
  | None => NoSuchFile
  | Some content =>
    match hash_blocks (read_blocks (S (length content)) content) [] None with
    | Some sha256 => Digest sha256
    | None => UnboundLocalError
    end
  end.
End Hashing.

(** ** The [clean] command over a list of tasks *)


(** The loop of [interactive_mode] for choice 5: [clean_lsb] is called with
    no handler of its own, so its exception leaves the loop (the handler
    around the whole choice prints it). *)
Fixpoint interactive_clean (img_save : saver) (tasks : list (string * string))
    (fs : gmap string image) : outcome unit * gmap string image :=
  match tasks with
  | [] => (Returns tt, fs)
  | (i, o) :: tasks' =>
    match clean_lsb img_save i o fs with
    | (Returns _, fs') => interactive_clean img_save tasks' fs'
    | (Raises e, fs') => (Raises e, fs')
    end
  end.

(** An [img.save] for the examples: a path that ends in [.png] is written
    with the very pixels of the image (PNG is lossless), and any other path
    is refused with nothing written, as Pillow refuses an extension for
    which it has no format. *)
Fixpoint ends_with (suffix s : string) : bool :=
  if String.eqb s suffix then true
  else match s with
       | EmptyString => false
       | String _ s' => ends_with suffix s'
       end.

(** The extension of a path: what follows its last dot, the dot included. *)
Fixpoint extension (path : string) : string :=
  match path with
  | EmptyString => EmptyString
  | String c path' =>
    match extension path' with
    | EmptyString => if Ascii.eqb c "."%char then path else EmptyString
    | ext => ext
    end
  end.

Definition png_save : saver :=
  fun path img fs =>
    if ends_with ".png" path then (Returns tt, <[path := img]> fs)
    else (Raises (ValueError ("unknown file extension: " ++ extension path)), fs).



(** A disk with an empty file and one of 5000 bytes, and a stand-in for
    the digest. *)
Definition test_disk : gmap string (list Z) :=
  {[ "empty.bin" := []; "data.bin" := replicate 5000 7 ]}.
Definition toy_digest (data : list Z) : string := str_of_bytes (take 4 data).


(** A carrier with an odd blue value. *)
Definition dark_carrier : image := Image_new 12 8 (10, 20, 31).

(** Three tasks, the second on a file that is not there. *)
Definition three_tasks : list (string * string) :=
  [("in.png", "out/in.png"); ("gone.png", "out/gone.png"); ("in.png", "out/copy.png")]%string.


(** * Properties *)

(** ** The bit codec *)

(** A list of length 8, as its eight elements. *)
Ltac chunk8 chunk Hlen :=
  do 8 (destruct chunk as [|? chunk]; [discriminate Hlen|]);
  destruct chunk; [|discriminate Hlen].

Lemma length_format_08b (byte : Z) : length (format_08b byte) = 8%nat.
Proof. reflexivity. Qed.

Lemma int_base2_format_08b (byte : Z) :
  0 <= byte < 256 -> int_base2 (format_08b byte) = byte.
Proof.
  intros Hb. unfold int_base2, format_08b. cbn [map fold_left].
  change (2 ^ 7) with 128. change (2 ^ 6) with 64. change (2 ^ 5) with 32.
  change (2 ^ 4) with 16. change (2 ^ 3) with 8. change (2 ^ 2) with 4.
  change (2 ^ 1) with 2. change (2 ^ 0) with 1.
  Z.to_euclidean_division_equations. lia.
Qed.

Lemma format_08b_int_base2 (chunk : list Z) :
  bits_ok chunk -> length chunk = 8%nat -> format_08b (int_base2 chunk) = chunk.
Proof.
  intros Hok Hlen.
  chunk8 chunk Hlen.
  unfold bits_ok in Hok.
  repeat match goal with
         | H : Forall _ (_ :: _) |- _ => apply Forall_cons_1 in H; destruct H as [[-> | ->] H]
         end; reflexivity.
Qed.

Lemma bits_ok_format_08b (byte : Z) : bits_ok (format_08b byte).
Proof.
  unfold bits_ok, format_08b. apply Forall_forall. intros b Hb.
  apply list_elem_of_In, in_map_iff in Hb. destruct Hb as [i [<- _]].
  pose proof (Z.mod_pos_bound (byte / 2 ^ i) 2). lia.
Qed.

Lemma bits_ok_bytes_to_bits (data : list Z) : bits_ok (bytes_to_bits data).
Proof.
  induction data as [|byte data IH]; cbn [bytes_to_bits].
  - constructor.
  - apply Forall_app. split; [apply bits_ok_format_08b | exact IH].
Qed.

Lemma length_bytes_to_bits (data : list Z) :
  length (bytes_to_bits data) = (8 * length data)%nat.
Proof.
  induction data as [|byte data IH]; cbn [bytes_to_bits]; [reflexivity|].
  rewrite length_app, length_format_08b, IH. cbn [length]. lia.
Qed.

Lemma bits_to_bytes_loop_acc (bits : list Z) (starts : list nat) (acc : list Z) :
  bits_to_bytes_loop bits starts acc = acc ++ bits_to_bytes_loop bits starts [].
Proof.
  revert acc. induction starts as [|i starts IH]; intros acc; cbn [bits_to_bytes_loop].
  - now rewrite app_nil_r.
  - destruct (length (take 8 (drop i bits)) <? 8)%nat.
    + now rewrite app_nil_r.
    + rewrite (IH (acc ++ _)), (IH ([] ++ _)), <- app_assoc. reflexivity.
Qed.

Lemma bits_to_bytes_loop_shift (chunk rest : list Z) (starts : list nat) (acc : list Z) :
  length chunk = 8%nat ->
  bits_to_bytes_loop (chunk ++ rest) (map (fun i => (8 + i)%nat) starts) acc =
  bits_to_bytes_loop rest starts acc.
Proof.
  intros Hlen. revert acc.
  induction starts as [|i starts IH]; intros acc; cbn [bits_to_bytes_loop map].
  - reflexivity.
  - rewrite <- Hlen, drop_app_add, Hlen.
    destruct (length (take 8 (drop i rest)) <? 8)%nat; [reflexivity | apply IH].
Qed.

Lemma range8_step (n : nat) :
  range8 (8 + n) = 0%nat :: map (fun i => (8 + i)%nat) (range8 n).
Proof.
  unfold range8.
  replace ((8 + n + 7) / 8)%nat with (S ((n + 7) / 8)).
  - cbn [seq map]. f_equal. rewrite <- seq_shift, !map_map.
    apply map_ext. intros k. lia.
  - replace (8 + n + 7)%nat with (1 * 8 + (n + 7))%nat by lia.
    rewrite Nat.div_add_l by lia. lia.
Qed.

(** One full chunk at the head of the bits gives one byte. *)
Lemma bits_to_bytes_chunk (chunk rest : list Z) :
  length chunk = 8%nat ->
  bits_to_bytes (chunk ++ rest) = int_base2 chunk :: bits_to_bytes rest.
Proof.
  intros Hlen. unfold bits_to_bytes.
  rewrite length_app, Hlen, range8_step. cbn [bits_to_bytes_loop].
  rewrite drop_0, take_app_length' by (symmetry; exact Hlen).
  rewrite Hlen. cbn [Nat.ltb Nat.leb app].
  rewrite bits_to_bytes_loop_shift by exact Hlen.
  apply (bits_to_bytes_loop_acc rest _ [_]).
Qed.

(** A dangling group of fewer than 8 bits is dropped. *)
Lemma bits_to_bytes_short (bits : list Z) :
  (length bits < 8)%nat -> bits_to_bytes bits = [].
Proof.
  intros Hlen. unfold bits_to_bytes, range8.
  destruct bits as [|b bits]; [reflexivity|].
  replace ((length (b :: bits) + 7) / 8)%nat with 1%nat.
  - cbn [seq map bits_to_bytes_loop]. rewrite drop_0, length_take.
    destruct (Nat.ltb_spec (8 `min` length (b :: bits)) 8); [reflexivity | lia].
  - apply Nat.div_unique with (r := length bits); cbn [length] in *; lia.
Qed.

(** Reasoning on [bits_to_bytes] one chunk of eight bits at a time. *)
Lemma bits_to_bytes_ind (P : list Z -> list Z -> Prop) :
  (forall bits, (length bits < 8)%nat -> P bits []) ->
  (forall chunk rest, length chunk = 8%nat ->
     P rest (bits_to_bytes rest) ->
     P (chunk ++ rest) (int_base2 chunk :: bits_to_bytes rest)) ->
  forall bits, P bits (bits_to_bytes bits).
Proof.
  intros Hshort Hchunk bits.
  remember (length bits) as n eqn:Hn. revert bits Hn.
  induction n as [n IH] using lt_wf_ind. intros bits Hn.
  destruct (Nat.lt_ge_cases (length bits) 8) as [Hlt|Hge].
  - rewrite bits_to_bytes_short by exact Hlt. now apply Hshort.
  - rewrite <- (take_drop 8 bits).
    assert (Hc : length (take 8 bits) = 8%nat) by (rewrite length_take; lia).
    rewrite bits_to_bytes_chunk by exact Hc. apply Hchunk; [exact Hc|].
    apply (IH (length (drop 8 bits))); [rewrite length_drop; lia | reflexivity].
Qed.

Lemma int_base2_byte (chunk : list Z) :
  bits_ok chunk -> length chunk = 8%nat -> 0 <= int_base2 chunk < 256.
Proof.
  intros Hok Hlen.
  chunk8 chunk Hlen.
  unfold bits_ok in Hok.
  repeat match goal with
         | H : Forall _ (_ :: _) |- _ => apply Forall_cons_1 in H; destruct H as [? H]
         end.
  unfold int_base2. cbn [fold_left]. lia.
Qed.

(** [bytes(byte_values)] in [bits_to_bytes] is given values of [range(256)]
    only, when the bits are bits. *)
Lemma bytes_ok_bits_to_bytes (bits : list Z) :
  bits_ok bits -> bytes_ok (bits_to_bytes bits).
Proof.
  apply (bits_to_bytes_ind (fun bits out => bits_ok bits -> bytes_ok out)).
  - intros _ _ _. constructor.
  - intros chunk rest Hc IH Hok. apply Forall_app in Hok. destruct Hok as [Hok1 Hok2].
    constructor; [now apply int_base2_byte | now apply IH].
Qed.


(** Decoding what was encoded, whatever bits follow. *)
Lemma bits_to_bytes_app (data rest : list Z) :
  bytes_ok data ->
  bits_to_bytes (bytes_to_bits data ++ rest) = data ++ bits_to_bytes rest.
Proof.
  induction 1 as [|byte data Hb _ IH]; cbn [bytes_to_bits app]; [reflexivity|].
  rewrite <- app_assoc, bits_to_bytes_chunk by apply length_format_08b.
  rewrite int_base2_format_08b by exact Hb. now rewrite IH.
Qed.

(** C3: [bits_to_bytes(bytes_to_bits(x)) == x] for every byte sequence [x];
    [bytes_to_bits] gives 8 bits per byte, most significant first, and
    [bits_to_bytes] regroups them in chunks of 8, in order. *)
Theorem bits_to_bytes_bytes_to_bits (x : list Z) :
  bytes_ok x -> bits_to_bytes (bytes_to_bits x) = x.
Proof.
  intros Hx. rewrite <- (app_nil_r (bytes_to_bits x)).
  rewrite bits_to_bytes_app by exact Hx.
  rewrite bits_to_bytes_short by (cbn; lia). apply app_nil_r.
Qed.

Lemma bits_to_bytes_bytes_to_bits_witness :
  bytes_ok [0; 36; 83; 255] /\
  bits_to_bytes (bytes_to_bits [0; 36; 83; 255]) = [0; 36; 83; 255].
Proof.
  assert (H : bytes_ok [0; 36; 83; 255]) by (repeat (constructor; [lia|]); constructor).
  split; [exact H | exact (bits_to_bytes_bytes_to_bits _ H)].
Defined.

(** Induction over bit lists, eight bits at a time. *)
Lemma chunks8_ind (P : list Z -> Prop) :
  P [] ->
  (forall chunk rest, length chunk = 8%nat -> P rest -> P (chunk ++ rest)) ->
  forall (k : nat) (bits : list Z), length bits = (8 * k)%nat -> P bits.
Proof.
  intros Hnil Hstep. induction k as [|k IH]; intros bits Hlen.
  - destruct bits; [exact Hnil | discriminate Hlen].
  - rewrite <- (take_drop 8 bits). apply Hstep.
    + rewrite length_take. lia.
    + apply IH. rewrite length_drop. lia.
Qed.

(** C9: for every list of bits (each 0 or 1) whose length is a multiple of
    8, [bytes_to_bits(bits_to_bytes(bits)) == bits]. *)
Theorem bytes_to_bits_bits_to_bytes (bits : list Z) (k : nat) :
  bits_ok bits -> length bits = (8 * k)%nat ->
  bytes_to_bits (bits_to_bytes bits) = bits.
Proof.
  intros Hok Hlen. revert Hok.
  apply (chunks8_ind (fun l => bits_ok l -> bytes_to_bits (bits_to_bytes l) = l))
    with (k := k); [| |exact Hlen].
  - intros _. reflexivity.
  - intros chunk rest Hc IH Hok. apply Forall_app in Hok. destruct Hok as [Hok1 Hok2].
    rewrite bits_to_bytes_chunk by exact Hc. cbn [bytes_to_bits].
    rewrite format_08b_int_base2 by assumption. now rewrite IH.
Qed.

Lemma bytes_to_bits_bits_to_bytes_witness :
  let bits := [0; 1; 0; 0; 0; 0; 0; 1; 1; 1; 1; 1; 0; 0; 0; 0] in
  bits_ok bits /\ length bits = (8 * 2)%nat /\
  bytes_to_bits (bits_to_bytes bits) = bits.
Proof.
  intros bits.
  assert (H : bits_ok bits) by (repeat (constructor; [lia|]); constructor).
  assert (L : length bits = (8 * 2)%nat) by reflexivity.
  split; [exact H | split; [exact L | exact (bytes_to_bits_bits_to_bytes bits 2 H L)]].
Defined.

(** ** Text and the cipher *)

Lemma bytes_ok_encode_utf8 (s : string) : bytes_ok (encode_utf8 s).
Proof.
  unfold bytes_ok, encode_utf8. apply Forall_forall. intros b Hb.
  apply list_elem_of_In, in_map_iff in Hb. destruct Hb as [c [<- _]].
  pose proof (N_ascii_bounded c). lia.
Qed.


Lemma encode_utf8_nonempty (c : ascii) (s : string) : encode_utf8 (String c s) <> [].
Proof. discriminate. Qed.


Lemma lxor_byte (a b : Z) : 0 <= a < 256 -> 0 <= b < 256 -> 0 <= Z.lxor a b < 256.
Proof.
  intros Ha Hb.
  assert (Hnn : 0 <= Z.lxor a b) by (apply Z.lxor_nonneg; lia).
  split; [exact Hnn|].
  destruct (Z.eq_dec (Z.lxor a b) 0) as [->|Hne]; [lia|].
  change 256 with (2 ^ 8). apply Z.log2_lt_pow2; [lia|].
  pose proof (Z.log2_lxor a b ltac:(lia) ltac:(lia)) as Hl.
  assert (Z.log2 a < 8).
  { destruct (Z.eq_dec a 0) as [->|]; [cbn; lia | apply Z.log2_lt_pow2; [lia | cbn; lia]]. }
  assert (Z.log2 b < 8).
  { destruct (Z.eq_dec b 0) as [->|]; [cbn; lia | apply Z.log2_lt_pow2; [lia | cbn; lia]]. }
  lia.
Qed.

Lemma length_xor_cycle (data cur key : list Z) :
  key <> [] -> length (xor_cycle data cur key) = length data.
Proof.
  intros Hkey. revert cur.
  induction data as [|a data IH]; intros cur; cbn [xor_cycle length]; [reflexivity|].
  destruct cur as [|b cur'].
  - destruct key as [|b cur']; [contradiction|]. cbn [length]. now rewrite IH.
  - cbn [length]. now rewrite IH.
Qed.

Lemma xor_cycle_involutive (data cur key : list Z) :
  key <> [] -> xor_cycle (xor_cycle data cur key) cur key = data.
Proof.
  intros Hkey. revert cur.
  induction data as [|a data IH]; intros cur; cbn [xor_cycle]; [reflexivity|].
  assert (Hx : forall b, Z.lxor (Z.lxor a b) b = a).
  { intros b. now rewrite Z.lxor_assoc, Z.lxor_nilpotent, Z.lxor_0_r. }
  destruct cur as [|b cur'].
  - destruct key as [|b cur']; [contradiction|]. cbn [xor_cycle]. now rewrite Hx, IH.
  - cbn [xor_cycle]. now rewrite Hx, IH.
Qed.

Lemma bytes_ok_xor_cycle (data cur key : list Z) :
  bytes_ok data -> bytes_ok cur -> bytes_ok key -> bytes_ok (xor_cycle data cur key).
Proof.
  intros Hd. revert cur. induction Hd as [|a data Ha _ IH]; intros cur Hc Hk;
    cbn [xor_cycle]; [constructor|].
  destruct cur as [|b cur'].
  - destruct Hk as [|b cur' Hb Hk']; constructor.
    + now apply lxor_byte.
    + apply IH; [exact Hk' | now constructor].
  - inversion Hc; subst. constructor; [now apply lxor_byte | now apply IH].
Qed.

(** [bytes([...])] in [xor_cipher] is given values of [range(256)] only. *)
Lemma bytes_ok_xor_cipher (data : list Z) (password : string) :
  bytes_ok data -> bytes_ok (xor_cipher data password).
Proof.
  intros Hd. destruct password as [|c s]; [exact Hd|].
  apply bytes_ok_xor_cycle; auto using bytes_ok_encode_utf8.
Qed.

Lemma xor_cipher_twice (data : list Z) (password : string) :
  xor_cipher (xor_cipher data password) password = data.
Proof.
  destruct password as [|c s]; [reflexivity|].
  apply xor_cycle_involutive, encode_utf8_nonempty.
Qed.

(** C4: applying [xor_cipher] twice with the same key gives the data back,
    for every byte sequence and every key, and the empty key leaves the data
    unchanged. *)
Theorem xor_cipher_involutive (x : list Z) (k : string) :
  xor_cipher (xor_cipher x k) k = x /\ xor_cipher x "" = x.
Proof. split; [apply xor_cipher_twice | reflexivity]. Qed.

(** C10: [len(xor_cipher(data, password)) == len(data)] for every byte
    sequence and every password, empty or not. *)
Theorem length_xor_cipher (data : list Z) (password : string) :
  length (xor_cipher data password) = length data.
Proof.
  destruct password as [|c s]; [reflexivity|].
  apply length_xor_cycle, encode_utf8_nonempty.
Qed.

(** With a password that encodes, the guard [if password:] around the
    cipher in [stego_hide] and [stego_extract] repeats the one inside
    [xor_cipher]. *)
Lemma cipher_if_password_Text (data : list Z) (password : string) :
  cipher_if_password data (Text password) = Returns (xor_cipher data password).
Proof. now destruct password. Qed.

(** ** Pixels *)

Lemma lowest_bit_put_bit (p : pixel) (bit : Z) :
  bit = 0 \/ bit = 1 -> lowest_bit (blue (put_bit p bit)) = bit.
Proof.
  destruct p as [[r g] b]. unfold lowest_bit, blue, put_bit. cbn [snd].
  intros Hbit. rewrite Z.land_lor_distr_l, <- Z.land_assoc.
  change (Z.land (Z.lnot 1) 1) with 0. rewrite Z.land_0_r.
  destruct Hbit as [-> | ->]; reflexivity.
Qed.


Lemma lowest_bit_bit (v : Z) : lowest_bit v = 0 \/ lowest_bit v = 1.
Proof.
  unfold lowest_bit. change (Z.land v 1) with (Z.land v (Z.ones 1)).
  rewrite Z.land_ones by lia. change (2 ^ 1) with 2.
  pose proof (Z.mod_pos_bound v 2). lia.
Qed.

Lemma red_green_put_bit (p : pixel) (bit : Z) :
  red (put_bit p bit) = red p /\ green (put_bit p bit) = green p.
Proof. destruct p as [[r g] b]. split; reflexivity. Qed.

(** The inner loop of [stego_hide] from column [x0], counter at [idx]. *)
Lemma hide_row_spec (bits : list Z) (y n : nat) :
  forall (x0 : nat) (pixels : pixel_access) (idx : nat),
    let r := hide_row bits y (seq x0 n) pixels idx in
    snd r = (idx + n `min` (length bits - idx))%nat /\
    forall x' y',
      fst r x' y' =
      if decide (y' = y /\ x0 <= x' < x0 + n /\ idx + (x' - x0) < length bits)%nat
      then put_bit (pixels x' y') (bits !!! (idx + (x' - x0))%nat)
      else pixels x' y'.
Proof.
  induction n as [|n IH]; intros x0 pixels idx; cbn [seq hide_row].
  - split; [cbn [snd]; lia|]. intros x' y'. cbn [fst]. case_decide; [lia | reflexivity].
  - destruct (Nat.ltb_spec idx (length bits)) as [Hlt|Hge].
    + destruct (pixels x0 y) as [[r g] b] eqn:Hp.
      specialize (IH (S x0) (set_pixel pixels x0 y (r, g, Z.lor (Z.land b (Z.lnot 1)) (bits !!! idx))) (S idx)).
      cbn zeta in IH. destruct IH as [IHs IHf]. split; [rewrite IHs; lia|].
      intros x' y'. rewrite IHf. unfold set_pixel.
      destruct (Nat.eqb_spec x' x0) as [->|Hx]; destruct (Nat.eqb_spec y' y) as [->|Hy];
        cbn [andb]; repeat case_decide; try lia; try reflexivity.
      * replace (idx + (x0 - x0))%nat with idx by lia. now rewrite Hp.
      * replace (S idx + (x' - S x0))%nat with (idx + (x' - x0))%nat by lia. reflexivity.
    + split; [cbn [snd]; lia|]. intros x' y'. cbn [fst]. case_decide; [lia | reflexivity].
Qed.

(** The outer loop of [stego_hide] from row [y0], counter at [idx]: the
    counter advances by one per pixel, row after row, until the bits are
    used up. *)
Lemma hide_rows_spec (bits : list Z) (w m : nat) :
  forall (y0 : nat) (pixels : pixel_access) (idx : nat),
    let r := hide_rows bits w (seq y0 m) pixels idx in
    snd r = (idx + (m * w) `min` (length bits - idx))%nat /\
    forall x' y',
      fst r x' y' =
      if decide (y0 <= y' < y0 + m /\ x' < w /\
                 idx + (y' - y0) * w + x' < length bits)%nat
      then put_bit (pixels x' y') (bits !!! (idx + (y' - y0) * w + x')%nat)
      else pixels x' y'.
Proof.
  induction m as [|m IH]; intros y0 pixels idx; cbn [seq hide_rows].
  - split; [cbn [snd]; lia|]. intros x' y'. cbn [fst]. case_decide; [lia | reflexivity].
  - destruct (hide_row_spec bits y0 w 0 pixels idx) as [Hs Hf].
    destruct (hide_row bits y0 (seq 0 w) pixels idx) as [pixels1 idx1].
    cbn [fst snd] in Hs, Hf.
    specialize (IH (S y0) pixels1 idx1). cbn zeta in IH. destruct IH as [IHs IHf].
    split; [rewrite IHs, Hs, Nat.mul_succ_l; lia|].
    intros x' y'. rewrite IHf, !Hf.
    destruct (Nat.lt_trichotomy y' y0) as [Hlt|[->|Hgt]].
    + repeat case_decide; try lia; reflexivity.
    + replace (y0 - y0)%nat with 0%nat by lia. rewrite Nat.mul_0_l.
      replace (x' - 0)%nat with x' by lia. rewrite !Nat.add_0_r.
      repeat case_decide; try lia; reflexivity.
    + replace (y' - y0)%nat with (S (y' - S y0)) by lia.
      rewrite Nat.mul_succ_l. set (d := ((y' - S y0) * w)%nat).
      repeat case_decide; try lia; try reflexivity.
      replace (idx1 + d + x')%nat with (idx + (d + w) + x')%nat by lia. reflexivity.
Qed.

(** What [stego_hide]'s loops do to the pixel at column [x], row [y]. *)
Lemma load_hide_pixels (bits : list Z) (img : image) (x y : nat) :
  load (hide_pixels bits img) x y =
  if decide (y < height img /\ x < width img /\
             y * width img + x < length bits)%nat
  then put_bit (load img x y) (bits !!! (y * width img + x)%nat)
  else load img x y.
Proof.
  unfold hide_pixels. cbn [load].
  destruct (hide_rows_spec bits (width img) (height img) 0 (load img) 0) as [_ Hf].
  rewrite Hf. replace (y - 0)%nat with y by lia. cbn [Nat.add].
  repeat case_decide; try lia; reflexivity.
Qed.

Lemma nth_pixel_index (img : image) (x y : nat) :
  (x < width img)%nat -> nth_pixel img (y * width img + x) = load img x y.
Proof.
  intros Hx. unfold nth_pixel. rewrite (Nat.add_comm _ x).
  rewrite Nat.Div0.mod_add, Nat.mod_small, Nat.div_add, Nat.div_small by lia.
  reflexivity.
Qed.



(** C6: for every image and every bit sequence with [len(bits) <= W*H], the
    loops of [stego_hide] write bit [i] into the lowest bit of the blue
    channel of the [i]-th pixel in row-major order (the pixel at column [x],
    row [y] with [i = y*W + x]), leave the red and green channel of every
    pixel unchanged, and leave every pixel of row-major index [>= len(bits)]
    unchanged. *)
Theorem hide_pixels_frame (img : image) (bits : list Z) :
  bits_ok bits ->
  (length bits <= width img * height img)%nat ->
  (forall x y i, (x < width img)%nat -> i = (y * width img + x)%nat ->
     (i < length bits)%nat ->
     bits !! i = Some (lowest_bit (blue (load (hide_pixels bits img) x y)))) /\
  (forall x y,
     red (load (hide_pixels bits img) x y) = red (load img x y) /\
     green (load (hide_pixels bits img) x y) = green (load img x y)) /\
  (forall x y i, (x < width img)%nat -> i = (y * width img + x)%nat ->
     (length bits <= i)%nat ->
     load (hide_pixels bits img) x y = load img x y).
Proof.
  intros Hok Hcap. split; [|split].
  - intros x y i Hx -> Hi. rewrite load_hide_pixels.
    assert (y < height img)%nat by nia.
    destruct (lookup_lt_is_Some_2 bits _ Hi) as [bit Hbit].
    rewrite (list_lookup_total_correct _ _ _ Hbit).
    case_decide; [|lia]. rewrite lowest_bit_put_bit; [exact Hbit|].
    exact (proj1 (Forall_lookup _ _) Hok _ _ Hbit).
  - intros x y. rewrite load_hide_pixels.
    case_decide; [apply red_green_put_bit | split; reflexivity].
  - intros x y i Hx -> Hi. rewrite load_hide_pixels. case_decide; [lia | reflexivity].
Qed.

Lemma hide_pixels_frame_witness :
  let bits := bytes_to_bits stop_marker in
  bits_ok bits /\ (length bits <= width red_carrier * height red_carrier)%nat /\
  bits !! 2%nat = Some (lowest_bit (blue (load (hide_pixels bits red_carrier) 2%nat 0%nat))) /\
  load (hide_pixels bits red_carrier) 0%nat 4%nat = load red_carrier 0%nat 4%nat.
Proof.
  intros bits.
  assert (Hok : bits_ok bits) by apply bits_ok_bytes_to_bits.
  assert (Hlen : (length bits <= width red_carrier * height red_carrier)%nat)
    by (apply Nat.leb_le; reflexivity).
  destruct (hide_pixels_frame red_carrier bits Hok Hlen) as (Hset & _ & Hkeep).
  split; [exact Hok|]. split; [exact Hlen|]. split.
  - apply (Hset 2%nat 0%nat 2%nat); [apply Nat.ltb_lt; reflexivity | reflexivity
                                    | apply Nat.ltb_lt; reflexivity].
  - apply (Hkeep 0%nat 4%nat 48%nat); [apply Nat.ltb_lt; reflexivity | reflexivity
                                      | apply Nat.leb_le; reflexivity].
Defined.

(** The inner loop of [stego_extract] from column [x0]. *)
Lemma extract_row_spec (pixels : pixel_access) (limit y n : nat) :
  forall (x0 : nat) (acc : list Z) (count : nat),
    extract_row pixels limit y (seq x0 n) acc count =
    (acc ++ take (limit - count)
              (map (fun x => lowest_bit (blue (pixels x y))) (seq x0 n)),
     (count + n `min` (limit - count))%nat).
Proof.
  induction n as [|n IH]; intros x0 acc count; cbn [seq extract_row map].
  - rewrite take_nil, app_nil_r. f_equal. lia.
  - destruct (Nat.leb_spec limit count) as [Hle|Hgt].
    + replace (limit - count)%nat with 0%nat by lia.
      rewrite take_0, app_nil_r. f_equal. lia.
    + destruct (pixels x0 y) as [[r g] b] eqn:Hp. rewrite IH.
      replace (limit - count)%nat with (S (limit - S count)) by lia.
      cbn [take]. rewrite <- app_assoc. cbn [app]. f_equal. lia.
Qed.

(** The outer loop of [stego_extract] from row [y0]: the rows are read in
    order until [limit] bits have been collected. *)
Lemma extract_rows_spec (pixels : pixel_access) (limit w m : nat) :
  forall (y0 : nat) (acc : list Z) (count : nat),
    extract_rows pixels limit w (seq y0 m) acc count =
    (acc ++ take (limit - count) (flat_map (row_bits pixels w) (seq y0 m)),
     (count + (m * w) `min` (limit - count))%nat).
Proof.
  induction m as [|m IH]; intros y0 acc count; cbn [seq extract_rows flat_map].
  - rewrite take_nil, app_nil_r. f_equal. lia.
  - destruct (Nat.leb_spec limit count) as [Hle|Hgt].
    + replace (limit - count)%nat with 0%nat by lia.
      rewrite take_0, app_nil_r. f_equal. lia.
    + rewrite extract_row_spec, IH. fold (row_bits pixels w y0).
      rewrite take_app, <- app_assoc.
      assert (Hlen : length (row_bits pixels w y0) = w)
        by (unfold row_bits; now rewrite length_map, length_seq).
      rewrite Hlen. f_equal.
      * do 2 f_equal. f_equal. lia.
      * rewrite Nat.mul_succ_l. lia.
Qed.

(** Reading the rows one after the other is reading in row-major order. *)
Lemma flat_map_row_bits (img : image) :
  flat_map (row_bits (load img) (width img)) (seq 0 (height img)) =
  blue_bits img (width img * height img).
Proof.
  unfold blue_bits. induction (height img) as [|h IH].
  - now rewrite Nat.mul_0_r.
  - rewrite seq_S, flat_map_app, IH. cbn [flat_map Nat.add]. rewrite app_nil_r.
    rewrite Nat.mul_succ_r, seq_app, map_app. f_equal. cbn [Nat.add].
    unfold row_bits.
    rewrite <- (Nat.add_0_r (width img * h)) at 1.
    rewrite <- (fmap_add_seq (width img * h) 0 (width img)).
    change (map (fun i => lowest_bit (blue (nth_pixel img i)))
              (Nat.add (width img * h) <$> seq 0 (width img)))
      with (map (fun i => lowest_bit (blue (nth_pixel img i)))
              (map (Nat.add (width img * h)) (seq 0 (width img)))).
    rewrite map_map. symmetry. apply map_ext_in. intros x Hx.
    apply in_seq in Hx. rewrite (Nat.mul_comm (width img) h).
    rewrite nth_pixel_index by lia. reflexivity.
Qed.

Lemma take_blue_bits (img : image) (n k : nat) :
  take k (blue_bits img n) = blue_bits img (k `min` n).
Proof.
  unfold blue_bits.
  change (take k (map ?f ?l)) with (take k (f <$> l)).
  rewrite <- fmap_take, take_seq. reflexivity.
Qed.

(** The bits collected by the two loops of [stego_extract]. *)
Lemma extract_bits_spec (img : image) :
  extract_bits img = blue_bits img (max_bits `min` (width img * height img)).
Proof.
  unfold extract_bits. rewrite extract_rows_spec. cbn [fst app].
  rewrite Nat.sub_0_r, flat_map_row_bits. apply take_blue_bits.
Qed.

Lemma length_blue_bits (img : image) (n : nat) : length (blue_bits img n) = n.
Proof. unfold blue_bits. now rewrite length_map, length_seq. Qed.

Lemma lookup_blue_bits (img : image) (n i : nat) :
  (i < n)%nat -> blue_bits img n !! i = Some (lowest_bit (blue (nth_pixel img i))).
Proof.
  intros Hi. unfold blue_bits.
  change (map ?f ?l) with (f <$> l).
  now rewrite list_lookup_fmap, lookup_seq_lt.
Qed.

Lemma bits_ok_blue_bits (img : image) (n : nat) : bits_ok (blue_bits img n).
Proof.
  unfold bits_ok, blue_bits. apply Forall_forall. intros b Hb.
  apply list_elem_of_In, in_map_iff in Hb. destruct Hb as [i [<- _]].
  apply lowest_bit_bit.
Qed.

(** C7: [stego_extract] reads exactly [min(4096 * 8, W*H)] bits before it
    looks for the sentinel, and the [i]-th bit read is the lowest bit of the
    blue channel of the [i]-th pixel in row-major order. *)
Theorem extract_bits_bounded (img : image) :
  let n := ((4096 * 8) `min` (width img * height img))%nat in
  length (extract_bits img) = n /\
  forall i, (i < n)%nat ->
    extract_bits img !! i = Some (lowest_bit (blue (nth_pixel img i))).
Proof.
  intros n. subst n. change (4096 * 8)%nat with max_bits.
  rewrite extract_bits_spec. split; [apply length_blue_bits|].
  intros i Hi. now apply lookup_blue_bits.
Qed.

(** ** Looking for the sentinel *)

Lemma bytes_in_unfold (sub s : list Z) :
  bytes_in sub s =
  startswith s sub || match s with [] => false | _ :: s' => bytes_in sub s' end.
Proof. destruct s; reflexivity. Qed.

Lemma split_head_unfold (s sep : list Z) :
  split_head s sep =
  if startswith s sep then []
  else match s with [] => [] | c :: s' => c :: split_head s' sep end.
Proof. destruct s; reflexivity. Qed.





Lemma bytes_ok_split_head (s sep : list Z) : bytes_ok s -> bytes_ok (split_head s sep).
Proof.
  induction 1 as [|c s Hc _ IH]; rewrite split_head_unfold;
    destruct (startswith _ sep); constructor; assumption.
Qed.



Lemma bytes_ok_stop_marker : bytes_ok stop_marker.
Proof. unfold stop_marker. repeat (constructor; [lia|]). constructor. Qed.

(** ** Hiding, then extracting *)

Lemma bytes_ok_full_payload (secret_text password : string) :
  bytes_ok (full_payload secret_text password).
Proof.
  apply Forall_app. split; [|apply bytes_ok_stop_marker].
  apply bytes_ok_xor_cipher, bytes_ok_encode_utf8.
Qed.


Create HintDb stego.
#[local] Hint Resolve bytes_ok_encode_utf8 bytes_ok_xor_cipher bytes_ok_stop_marker
  bytes_ok_full_payload bytes_ok_bits_to_bytes bytes_ok_split_head
  bits_ok_bytes_to_bits bits_ok_blue_bits : stego.



Section Carrier.
(** A file system in which [input_path] holds the image [img]. *)
Context (img_save : saver).
Context (fs : gmap string image) (input_path : string) (img : image).
Hypothesis Hopen : fs !! input_path = Some img.


(** What [stego_extract] does on a carrier that is there, with a password
    that encodes. *)
Lemma stego_extract_unfold (password : string) :
  let raw_data := bits_to_bytes (extract_bits img) in
  let secret_bytes := xor_cipher (split_head raw_data stop_marker) password in
  stego_extract input_path (Text password) fs =
  Returns (if bytes_in stop_marker raw_data
           then match decode_utf8 secret_bytes with
                | Some text => text
                | None => wrong_password_message
                end
           else not_found_message).
Proof.
  cbn zeta. unfold stego_extract. rewrite Hopen, cipher_if_password_Text.
  destruct (bytes_in _ _); [|reflexivity]. now destruct (decode_utf8 _).
Qed.

(** Without a sentinel the password is not looked at. *)
Lemma stego_extract_not_found (password : py_str) :
  bytes_in stop_marker (bits_to_bytes (extract_bits img)) = false ->
  stego_extract input_path password fs = Returns not_found_message.
Proof. intros Hnone. unfold stego_extract. now rewrite Hopen, Hnone. Qed.
End Carrier.









(** ** Extraction never raises *)

Lemma bits_ok_extract_bits (img : image) : bits_ok (extract_bits img).
Proof. rewrite extract_bits_spec. apply bits_ok_blue_bits. Qed.

(** For every carrier image and every password that encodes,
    [stego_extract] returns a text and raises nothing: the not-found message
    when the sentinel is absent from the recovered bytes, the wrong-password
    message when the sentinel is there and the deciphered prefix is not
    valid UTF-8, the decoded text otherwise.  On the way [bits_to_bytes] is
    given bits, and [xor_cipher] and [decode] bytes. *)
Lemma stego_extract_total (fs : gmap string image)
    (input_path password : string) (img : image) :
  fs !! input_path = Some img ->
  let raw_data := bits_to_bytes (extract_bits img) in
  let secret_bytes := xor_cipher (split_head raw_data stop_marker) password in
  bits_ok (extract_bits img) /\ bytes_ok raw_data /\ bytes_ok secret_bytes /\
  exists text,
    stego_extract input_path (Text password) fs = Returns text /\
    (bytes_in stop_marker raw_data = false -> text = not_found_message) /\
    (bytes_in stop_marker raw_data = true -> decode_utf8 secret_bytes = None ->
     text = wrong_password_message) /\
    (bytes_in stop_marker raw_data = true ->
     forall decoded, decode_utf8 secret_bytes = Some decoded -> text = decoded).
Proof.
  intros Hopen raw_data secret_bytes.
  assert (Hbits : bits_ok (extract_bits img)) by apply bits_ok_extract_bits.
  assert (Hraw : bytes_ok raw_data) by (unfold raw_data; auto with stego).
  repeat split; try assumption.
  - unfold secret_bytes. auto with stego.
  - rewrite (stego_extract_unfold _ _ _ Hopen). cbn zeta.
    fold raw_data. fold secret_bytes. eexists. split; [reflexivity|].
    destruct (bytes_in stop_marker raw_data); repeat split; try discriminate.
    + intros _ Hnone. now rewrite Hnone.
    + intros _ decoded Hsome. now rewrite Hsome.
Qed.

(** A password that does not encode makes [stego_extract] raise as soon as
    the recovered bytes hold a sentinel: [xor_cipher] is called outside the
    [try], which catches [UnicodeDecodeError] only. *)
Lemma stego_extract_LoneSurrogate (fs : gmap string image)
    (input_path : string) (img : image) :
  fs !! input_path = Some img ->
  bytes_in stop_marker (bits_to_bytes (extract_bits img)) = true ->
  stego_extract input_path LoneSurrogate fs = Raises UnicodeEncodeError.
Proof. intros Hopen Hfound. unfold stego_extract. now rewrite Hopen, Hfound. Qed.

(** C5 fails on the code: [stego_hide] hides [abcdef] under the key [k] in
    the 12 x 8 carrier, and on the image it wrote [stego_extract], called
    with a password that holds a lone surrogate, raises
    [UnicodeEncodeError] where it is to return a text. *)
Lemma stego_extract_raises :
  fst (stego_hide png_save "in.png" "out.png" (Text "abcdef") (Text "k") test_files)
  = Returns tt /\
  stego_extract "out.png" LoneSurrogate
    (snd (stego_hide png_save "in.png" "out.png" (Text "abcdef") (Text "k") test_files))
  = Raises UnicodeEncodeError /\
  stego_extract "out.png" (Text "k")
    (snd (stego_hide png_save "in.png" "out.png" (Text "abcdef") (Text "k") test_files))
  = Returns "abcdef".
Proof. repeat split; reflexivity. Qed.

(** ** Clearing *)

Lemma clean_row_spec (y n : nat) :
  forall (x0 : nat) (pixels : pixel_access) (x' y' : nat),
    clean_row y (seq x0 n) pixels x' y' =
    if decide (y' = y /\ x0 <= x' < x0 + n)%nat
    then clear_bit (pixels x' y') else pixels x' y'.
Proof.
  induction n as [|n IH]; intros x0 pixels x' y'; cbn [seq clean_row].
  - case_decide; [lia | reflexivity].
  - destruct (pixels x0 y) as [[r g] b] eqn:Hp. rewrite IH. unfold set_pixel.
    destruct (Nat.eqb_spec x' x0) as [->|Hx]; destruct (Nat.eqb_spec y' y) as [->|Hy];
      cbn [andb]; repeat case_decide; try lia; try reflexivity.
    now rewrite Hp.
Qed.

Lemma clean_rows_spec (w m : nat) :
  forall (y0 : nat) (pixels : pixel_access) (x' y' : nat),
    clean_rows w (seq y0 m) pixels x' y' =
    if decide (y0 <= y' < y0 + m /\ x' < w)%nat
    then clear_bit (pixels x' y') else pixels x' y'.
Proof.
  induction m as [|m IH]; intros y0 pixels x' y'; cbn [seq clean_rows].
  - case_decide; [lia | reflexivity].
  - rewrite IH, !clean_row_spec. repeat case_decide; try lia; reflexivity.
Qed.






(** ** The limits of the framing *)





(** The sentinel need not lie inside the secret to cut it short: the five
    bytes [$STOP] followed by the sentinel read [$STOP$] at offset 0. *)
Example hide_extract_marker_straddling :
  bytes_in stop_marker (ciphered "$STOP" "") = false /\
  fst (stego_hide png_save "in.png" "out.png" (Text "$STOP") (Text "") test_files)
  = Returns tt /\
  stego_extract "out.png" (Text "")
    (snd (stego_hide png_save "in.png" "out.png" (Text "$STOP") (Text "") test_files))
  = Returns "".
Proof. repeat split; reflexivity. Qed.

(** * Further properties of the code *)

(** ** More on the bit codec *)

(** X1: [bytes_to_bits] gives exactly 8 bits per byte, each of them 0 or 1. *)
Theorem bytes_to_bits_shape (data : list Z) :
  length (bytes_to_bits data) = (8 * length data)%nat /\
  bits_ok (bytes_to_bits data).
Proof. split; [apply length_bytes_to_bits | apply bits_ok_bytes_to_bits]. Qed.

Lemma lookup_format_08b (byte : Z) (i : nat) :
  (i < 8)%nat ->
  format_08b byte !! i = Some (Z.b2z (Z.testbit byte (7 - Z.of_nat i))).
Proof.
  intros Hi. unfold format_08b.
  do 8 (destruct i as [|i];
        [cbn [map lookup list_lookup]; f_equal; symmetry;
         apply Z.testbit_spec'; lia|]).
  lia.
Qed.

(** X2: the bits of a byte come most significant first: bit [8*j + i] of
    [bytes_to_bits(data)] is bit [7 - i] of byte [j]. *)
Theorem bytes_to_bits_msb_first (data : list Z) (j i : nat) (byte : Z) :
  data !! j = Some byte -> (i < 8)%nat ->
  bytes_to_bits data !! (8 * j + i)%nat =
  Some (Z.b2z (Z.testbit byte (7 - Z.of_nat i))).
Proof.
  revert j. induction data as [|b data IH]; intros j Hj Hi; [discriminate|].
  cbn [bytes_to_bits]. destruct j as [|j].
  - injection Hj as ->. rewrite lookup_app_l by (rewrite length_format_08b; lia).
    now apply lookup_format_08b.
  - rewrite lookup_app_r by (rewrite length_format_08b; lia).
    rewrite length_format_08b.
    replace (8 * S j + i - 8)%nat with (8 * j + i)%nat by lia.
    now apply IH.
Qed.

Lemma bytes_to_bits_msb_first_witness :
  [65; 128] !! 1%nat = Some 128 /\ (0 < 8)%nat /\
  bytes_to_bits [65; 128] !! (8 * 1 + 0)%nat =
  Some (Z.b2z (Z.testbit 128 (7 - Z.of_nat 0))).
Proof.
  assert (H : [65; 128] !! 1%nat = Some 128) by reflexivity.
  assert (H' : (0 < 8)%nat) by lia.
  split; [exact H|]. split; [exact H'|].
  exact (bytes_to_bits_msb_first [65; 128] 1 0 128 H H').
Defined.

(** X3: the bits of a concatenation are the bits of its parts, one after
    the other; so the framed payload is embedded as the bits of the ciphered
    payload followed by the 48 bits of the sentinel. *)
Theorem bytes_to_bits_app (data1 data2 : list Z) :
  bytes_to_bits (data1 ++ data2) = bytes_to_bits data1 ++ bytes_to_bits data2.
Proof.
  induction data1 as [|byte data1 IH]; cbn [app bytes_to_bits]; [reflexivity|].
  now rewrite IH, app_assoc.
Qed.

Lemma length_bits_to_bytes (bits : list Z) :
  length (bits_to_bytes bits) = (length bits / 8)%nat.
Proof.
  apply (bits_to_bytes_ind (fun bits out => length out = (length bits / 8)%nat)).
  - intros short Hshort. now rewrite Nat.div_small.
  - intros chunk rest Hc IH. cbn [length]. rewrite IH, length_app, Hc.
    replace (8 + length rest)%nat with (1 * 8 + length rest)%nat by lia.
    now rewrite Nat.div_add_l.
Qed.

(** X4: [bits_to_bytes] gives one byte for every full group of 8 bits,
    [len(bits) // 8] bytes in all, and, given bits, only values of
    [range(256)], so that [bytes(byte_values)] is never refused. *)
Theorem bits_to_bytes_shape (bits : list Z) :
  bits_ok bits ->
  length (bits_to_bytes bits) = (length bits / 8)%nat /\
  bytes_ok (bits_to_bytes bits).
Proof.
  intros Hok. split; [apply length_bits_to_bytes | now apply bytes_ok_bits_to_bytes].
Qed.

Lemma bits_to_bytes_shape_witness :
  bits_ok [1; 1; 1; 1; 1; 1; 1; 1; 0; 1] /\
  length (bits_to_bytes [1; 1; 1; 1; 1; 1; 1; 1; 0; 1]) = (10 / 8)%nat /\
  bytes_ok (bits_to_bytes [1; 1; 1; 1; 1; 1; 1; 1; 0; 1]).
Proof.
  assert (H : bits_ok [1; 1; 1; 1; 1; 1; 1; 1; 0; 1])
    by (repeat (constructor; [lia|]); constructor).
  split; [exact H|]. exact (bits_to_bytes_shape _ H).
Defined.

(** X5: a dangling group of fewer than 8 bits at the end is dropped, not
    padded: it does not change the bytes decoded. *)
Theorem bits_to_bytes_dangling (bits dangling : list Z) (k : nat) :
  length bits = (8 * k)%nat -> (length dangling < 8)%nat ->
  bits_to_bytes (bits ++ dangling) = bits_to_bytes bits.
Proof.
  intros Hlen Hshort.
  apply (chunks8_ind (fun l => bits_to_bytes (l ++ dangling) = bits_to_bytes l))
    with (k := k); [| |exact Hlen].
  - cbn [app]. rewrite bits_to_bytes_short by exact Hshort.
    symmetry. apply bits_to_bytes_short. cbn. lia.
  - intros chunk rest Hc IH. rewrite <- app_assoc.
    rewrite (bits_to_bytes_chunk chunk (rest ++ dangling)),
      (bits_to_bytes_chunk chunk rest) by exact Hc.
    now rewrite IH.
Qed.

Lemma bits_to_bytes_dangling_witness :
  length [0; 1; 0; 0; 0; 0; 0; 1] = (8 * 1)%nat /\ (length [1; 1; 1]%Z < 8)%nat /\
  bits_to_bytes ([0; 1; 0; 0; 0; 0; 0; 1] ++ [1; 1; 1]) =
  bits_to_bytes [0; 1; 0; 0; 0; 0; 0; 1].
Proof.
  assert (H : length [0; 1; 0; 0; 0; 0; 0; 1] = (8 * 1)%nat) by reflexivity.
  assert (H' : (length [1; 1; 1]%Z < 8)%nat) by (cbn; lia).
  split; [exact H|]. split; [exact H'|].
  exact (bits_to_bytes_dangling _ _ 1 H H').
Defined.

(** ** More on the cipher *)

(** Where [cycle(key)] stands after [j] elements of a pass over [key], the
    [i]-th pair of [zip] holds key byte [(j + i) mod len(key)]. *)
Lemma lookup_xor_cycle (key : list Z) :
  forall (data : list Z) (j i : nat) (a : Z),
    (j <= length key)%nat -> key <> [] -> data !! i = Some a ->
    xor_cycle data (drop j key) key !! i =
    Some (Z.lxor a (key !!! ((j + i) mod length key)%nat)).
Proof.
  induction data as [|d data IH]; intros j i a Hj Hkey Hi; [discriminate|].
  assert (Hlen : (0 < length key)%nat) by (destruct key; [contradiction | cbn; lia]).
  cbn [xor_cycle]. destruct (drop j key) as [|b cur'] eqn:Hcur.
  - assert (j = length key) as ->.
    { apply (f_equal length) in Hcur. rewrite length_drop in Hcur. cbn in Hcur. lia. }
    destruct i as [|i].
    + injection Hi as ->. rewrite Nat.add_0_r, Nat.Div0.mod_same.
      destruct key as [|b cur']; [contradiction|]. reflexivity.
    + pose proof (IH 1%nat i a ltac:(lia) Hkey Hi) as H.
      replace ((length key + S i) mod length key)%nat
        with ((1 + i) mod length key)%nat.
      * destruct key as [|b cur']; [contradiction|]. exact H.
      * replace (length key + S i)%nat with (1 + i + 1 * length key)%nat by lia.
        now rewrite Nat.Div0.mod_add.
  - assert (Hjlt : (j < length key)%nat).
    { apply (f_equal length) in Hcur. rewrite length_drop in Hcur. cbn in Hcur. lia. }
    assert (Hb : key !! j = Some b).
    { rewrite <- (Nat.add_0_r j), <- lookup_drop, Hcur. reflexivity. }
    assert (Hcur' : cur' = drop (S j) key).
    { change cur' with (drop 1 (b :: cur')). rewrite <- Hcur, drop_drop.
      f_equal. lia. }
    destruct i as [|i].
    + injection Hi as ->. cbn [lookup list_lookup]. do 2 f_equal.
      rewrite Nat.add_0_r, Nat.mod_small by exact Hjlt.
      now rewrite (list_lookup_total_correct _ _ _ Hb).
    + cbn [lookup list_lookup]. rewrite Hcur'.
      replace (j + S i)%nat with (S j + i)%nat by lia.
      apply IH; [lia | exact Hkey | exact Hi].
Qed.

Lemma lookup_xor_cipher (data : list Z) (c : ascii) (s : string) (i : nat) (a : Z) :
  data !! i = Some a ->
  let key := encode_utf8 (String c s) in
  xor_cipher data (String c s) !! i =
  Some (Z.lxor a (key !!! (i mod length key)%nat)).
Proof.
  intros Hi key.
  exact (lookup_xor_cycle key data 0 i a ltac:(lia) (encode_utf8_nonempty c s) Hi).
Qed.

(** X6: with a non-empty password, byte [i] of the result of [xor_cipher] is
    byte [i] of the data XOR the key byte at position [i mod len(key)], the
    key being the UTF-8 bytes of the password: the key repeats cyclically
    and starts over at the first byte of the data. *)
Theorem xor_cipher_index (data : list Z) (password : string) (i : nat) (a : Z) :
  password <> EmptyString -> data !! i = Some a ->
  xor_cipher data password !! i =
  Some (Z.lxor a (encode_utf8 password !!! (i mod length (encode_utf8 password))%nat)).
Proof.
  intros Hpw Hi. destruct password as [|c s]; [contradiction|].
  now apply lookup_xor_cipher.
Qed.

Lemma xor_cipher_index_witness :
  "ab"%string <> EmptyString /\ [1; 2; 3] !! 2%nat = Some 3 /\
  xor_cipher [1; 2; 3] "ab" !! 2%nat = Some (Z.lxor 3 97).
Proof.
  assert (H : "ab"%string <> EmptyString) by discriminate.
  assert (H' : [1; 2; 3] !! 2%nat = Some 3) by reflexivity.
  split; [exact H|]. split; [exact H'|].
  exact (xor_cipher_index [1; 2; 3] "ab" 2 3 H H').
Defined.

Lemma xor_cycle_take (key : list Z) :
  forall (data cur : list Z) (n : nat),
    xor_cycle (take n data) cur key = take n (xor_cycle data cur key).
Proof.
  induction data as [|a data IH]; intros cur n.
  - rewrite take_nil. cbn [xor_cycle]. now rewrite take_nil.
  - destruct n as [|n]; [reflexivity|]. cbn [take xor_cycle].
    destruct cur as [|b cur']; [destruct key as [|b cur']|];
      cbn [take]; try reflexivity; now rewrite IH.
Qed.

(** X7: the cipher of a prefix is the prefix of the cipher: cutting the data
    short, as the 4096-byte window of [stego_extract] does, leaves the
    bytes that remain decipherable. *)
Theorem xor_cipher_take (data : list Z) (password : string) (n : nat) :
  xor_cipher (take n data) password = take n (xor_cipher data password).
Proof.
  destruct password as [|c s]; [reflexivity|]. apply xor_cycle_take.
Qed.

(** X8: [xor_cipher] maps bytes to bytes: the values it hands to
    [bytes([...])] lie in [range(256)], whatever the password. *)
Theorem xor_cipher_in_range (data : list Z) (password : string) :
  bytes_ok data -> bytes_ok (xor_cipher data password).
Proof. apply bytes_ok_xor_cipher. Qed.

Lemma xor_cipher_in_range_witness :
  bytes_ok [0; 255; 36] /\ bytes_ok (xor_cipher [0; 255; 36] "super_pass").
Proof.
  assert (H : bytes_ok [0; 255; 36]) by (repeat (constructor; [lia|]); constructor).
  split; [exact H | exact (xor_cipher_in_range _ "super_pass" H)].
Defined.

Lemma lxor_fixed (a b : Z) : Z.lxor a b = a -> b = 0.
Proof.
  intros H. apply (f_equal (Z.lxor a)) in H.
  rewrite <- Z.lxor_assoc, Z.lxor_nilpotent, Z.lxor_0_l in H. exact H.
Qed.

(** X9: with a non-empty password that holds no NUL character, [xor_cipher]
    changes every byte of the data (as [test_xor_cipher_positive] expects of
    its example); a key byte 0 is the only one that leaves a byte as it is. *)
Theorem xor_cipher_changes (data : list Z) (password : string) (i : nat) (a : Z) :
  password <> EmptyString ->
  Forall (fun b => b <> 0) (encode_utf8 password) ->
  data !! i = Some a ->
  xor_cipher data password !! i <> Some a.
Proof.
  intros Hpw Hnz Hi. destruct password as [|c s]; [contradiction|].
  rewrite (lookup_xor_cipher _ _ _ _ _ Hi). cbn zeta. intros [= Hfix].
  apply lxor_fixed in Hfix.
  set (key := encode_utf8 (String c s)) in *.
  assert (Hlt : (i mod length key < length key)%nat)
    by (apply Nat.mod_upper_bound; discriminate).
  destruct (lookup_lt_is_Some_2 key _ Hlt) as [b Hb].
  rewrite (list_lookup_total_correct _ _ _ Hb) in Hfix.
  exact (proj1 (Forall_lookup _ _) Hnz _ _ Hb Hfix).
Qed.

Lemma xor_cipher_changes_witness :
  "super_pass"%string <> EmptyString /\
  Forall (fun b => b <> 0) (encode_utf8 "super_pass") /\
  encode_utf8 "Secret Data" !! 3%nat = Some 114 /\
  xor_cipher (encode_utf8 "Secret Data") "super_pass" !! 3%nat <> Some 114.
Proof.
  assert (H : "super_pass"%string <> EmptyString) by discriminate.
  assert (H' : Forall (fun b => b <> 0) (encode_utf8 "super_pass"))
    by (repeat (constructor; [discriminate|]); constructor).
  assert (H'' : encode_utf8 "Secret Data" !! 3%nat = Some 114) by reflexivity.
  split; [exact H|]. split; [exact H'|]. split; [exact H''|].
  exact (xor_cipher_changes _ "super_pass" 3 114 H H' H'').
Defined.

(** ** More on hiding *)




Lemma land_lnot_1 (b : Z) : Z.land b (Z.lnot 1) = 2 * (b / 2).
Proof.
  rewrite <- Z.ldiff_land. change 1 with (Z.ones 1) at 1.
  rewrite Z.ldiff_ones_r, Z.shiftr_div_pow2, Z.shiftl_mul_pow2 by lia.
  change (2 ^ 1) with 2. lia.
Qed.

Lemma lor_even_bit (q bit : Z) : bit = 0 \/ bit = 1 -> Z.lor (2 * q) bit = 2 * q + bit.
Proof.
  intros [-> | ->]; [rewrite Z.lor_0_r; lia|].
  assert (Hland : Z.land (2 * q) 1 = 0).
  { change 1 with (Z.ones 1) at 1. rewrite Z.land_ones by lia.
    change (2 ^ 1) with 2. rewrite Z.mul_comm. apply Z.mod_mul. lia. }
  rewrite <- (Z.lxor_lor _ _ Hland). symmetry. now apply Z.add_nocarry_lxor.
Qed.

Lemma blue_put_bit (p : pixel) (bit : Z) :
  bit = 0 \/ bit = 1 -> blue (put_bit p bit) = 2 * (blue p / 2) + bit.
Proof.
  intros Hbit. destruct p as [[r g] b]. unfold blue, put_bit. cbn [snd].
  rewrite land_lnot_1. now apply lor_even_bit.
Qed.

Lemma put_bit_put_bit (p : pixel) (bit1 bit2 : Z) :
  bit1 = 0 \/ bit1 = 1 -> put_bit (put_bit p bit1) bit2 = put_bit p bit2.
Proof.
  intros Hbit. destruct p as [[r g] b]. unfold put_bit. do 2 f_equal.
  rewrite (land_lnot_1 b), lor_even_bit by exact Hbit. rewrite land_lnot_1.
  f_equal. Z.to_euclidean_division_equations. lia.
Qed.

Lemma bits_ok_lookup_total (bits : list Z) (i : nat) :
  bits_ok bits -> (i < length bits)%nat -> bits !!! i = 0 \/ bits !!! i = 1.
Proof.
  intros Hok Hi. destruct (lookup_lt_is_Some_2 bits _ Hi) as [bit Hbit].
  rewrite (list_lookup_total_correct _ _ _ Hbit).
  exact (proj1 (Forall_lookup _ _) Hok _ _ Hbit).
Qed.

(** X12: hiding changes a blue value by at most 1 and keeps it a channel
    value: for bits that are bits, the blue channel of every pixel keeps
    all but its lowest bit ([b' // 2 == b // 2]) and stays in [range(256)]. *)
Theorem hide_pixels_blue_close (img : image) (bits : list Z) (x y : nat) :
  bits_ok bits ->
  0 <= blue (load img x y) < 256 ->
  let b := blue (load img x y) in
  let b' := blue (load (hide_pixels bits img) x y) in
  0 <= b' < 256 /\ b' / 2 = b / 2.
Proof.
  intros Hok Hb. cbn zeta. rewrite load_hide_pixels.
  case_decide as Hc; [|split; [exact Hb | reflexivity]].
  destruct Hc as (_ & _ & Hidx).
  rewrite blue_put_bit by now apply bits_ok_lookup_total.
  destruct (bits_ok_lookup_total bits _ Hok Hidx) as [-> | ->];
    Z.to_euclidean_division_equations; lia.
Qed.

Lemma hide_pixels_blue_close_witness :
  bits_ok (bytes_to_bits stop_marker) /\
  0 <= blue (load red_carrier 1%nat 0%nat) < 256 /\
  0 <= blue (load (hide_pixels (bytes_to_bits stop_marker) red_carrier) 1%nat 0%nat) < 256 /\
  blue (load (hide_pixels (bytes_to_bits stop_marker) red_carrier) 1%nat 0%nat) / 2 =
  blue (load red_carrier 1%nat 0%nat) / 2.
Proof.
  assert (H : bits_ok (bytes_to_bits stop_marker)) by apply bits_ok_bytes_to_bits.
  assert (H' : 0 <= blue (load red_carrier 1%nat 0%nat) < 256) by (cbn; lia).
  split; [exact H|]. split; [exact H'|].
  exact (hide_pixels_blue_close red_carrier _ 1 0 H H').
Defined.

(** X13: a second hiding overwrites the first: after hiding [bits1], hiding
    [bits2], no shorter, leaves the image that hiding [bits2] alone leaves;
    in particular hiding the same bits twice is hiding them once. *)
Theorem hide_pixels_overwrite (img : image) (bits1 bits2 : list Z) (x y : nat) :
  bits_ok bits1 -> (length bits1 <= length bits2)%nat ->
  load (hide_pixels bits2 (hide_pixels bits1 img)) x y =
  load (hide_pixels bits2 img) x y.
Proof.
  intros Hok Hlen. rewrite !load_hide_pixels. cbn [width height hide_pixels].
  repeat case_decide; try lia; try reflexivity.
  apply put_bit_put_bit. apply bits_ok_lookup_total; [exact Hok | lia].
Qed.

Lemma hide_pixels_overwrite_witness :
  bits_ok [1; 1; 0] /\ (length [1; 1; 0]%Z <= length [0; 1; 1; 1]%Z)%nat /\
  load (hide_pixels [0; 1; 1; 1] (hide_pixels [1; 1; 0] red_carrier)) 0%nat 0%nat =
  load (hide_pixels [0; 1; 1; 1] red_carrier) 0%nat 0%nat.
Proof.
  assert (H : bits_ok [1; 1; 0]) by (repeat (constructor; [lia|]); constructor).
  assert (H' : (length [1; 1; 0]%Z <= length [0; 1; 1; 1]%Z)%nat) by (cbn; lia).
  split; [exact H|]. split; [exact H'|].
  exact (hide_pixels_overwrite red_carrier _ _ 0 0 H H').
Defined.

(** ** More on extraction *)



Lemma startswith_short (s prefix : list Z) :
  (length s < length prefix)%nat -> startswith s prefix = false.
Proof.
  revert s. induction prefix as [|p prefix IH]; intros s Hlen; [cbn in Hlen; lia|].
  destruct s as [|c s]; [reflexivity|]. cbn [startswith].
  rewrite IH by (cbn [length] in Hlen; lia). apply andb_false_r.
Qed.

Lemma bytes_in_short (sub s : list Z) :
  (length s < length sub)%nat -> bytes_in sub s = false.
Proof.
  induction s as [|c s IH]; intros Hlen; rewrite bytes_in_unfold.
  - now rewrite startswith_short.
  - rewrite startswith_short by exact Hlen.
    rewrite IH by (cbn [length] in Hlen; lia). reflexivity.
Qed.

(** X15: an image of fewer than 48 pixels holds no sentinel: on it
    [stego_extract] reports that nothing was found, whatever its pixels and
    whatever the password. *)
Theorem stego_extract_small_image (fs : gmap string image)
    (input_path : string) (password : py_str) (img : image) :
  fs !! input_path = Some img ->
  (width img * height img < 48)%nat ->
  stego_extract input_path password fs = Returns not_found_message.
Proof.
  intros Hopen Hsmall. apply (stego_extract_not_found _ _ _ Hopen).
  rewrite bytes_in_short; [reflexivity|].
  rewrite length_bits_to_bytes, extract_bits_spec, length_blue_bits.
  cbn [length stop_marker].
  apply Nat.Div0.div_lt_upper_bound. lia.
Qed.

Lemma stego_extract_small_image_witness :
  let fs : gmap string image := {[ "tiny.png" := Image_new 6 7 (0, 0, 255) ]} in
  fs !! "tiny.png" = Some (Image_new 6 7 (0, 0, 255)) /\
  stego_extract "tiny.png" (Text "123") fs = Returns not_found_message.
Proof.
  intros fs.
  assert (H : fs !! "tiny.png" = Some (Image_new 6 7 (0, 0, 255))) by reflexivity.
  split; [exact H|].
  apply (stego_extract_small_image fs "tiny.png" (Text "123") _ H).
  apply Nat.ltb_lt. reflexivity.
Defined.

(** X16: [stego_extract] reads nothing of an image but the lowest blue bit
    of its first [min(4096 * 8, W*H)] pixels in row-major order: two images
    of the same size that agree on these bits give the same result,
    whatever their red and green channels, the other bits of blue and the
    pixels further on. *)
Theorem stego_extract_reads_blue_bits_only (fs1 fs2 : gmap string image)
    (path1 path2 : string) (password : py_str) (img1 img2 : image) :
  fs1 !! path1 = Some img1 -> fs2 !! path2 = Some img2 ->
  width img1 = width img2 -> height img1 = height img2 ->
  (forall i, (i < max_bits `min` (width img1 * height img1))%nat ->
     lowest_bit (blue (nth_pixel img1 i)) = lowest_bit (blue (nth_pixel img2 i))) ->
  stego_extract path1 password fs1 = stego_extract path2 password fs2.
Proof.
  intros Hopen1 Hopen2 Hw Hh Hbits.
  unfold stego_extract. rewrite Hopen1, Hopen2.
  rewrite !extract_bits_spec, <- Hw, <- Hh.
  replace (blue_bits img2 (max_bits `min` (width img1 * height img1)))
    with (blue_bits img1 (max_bits `min` (width img1 * height img1)));
    [reflexivity|].
  unfold blue_bits. apply map_ext_in. intros i Hi. apply in_seq in Hi.
  apply Hbits. lia.
Qed.

Lemma stego_extract_reads_blue_bits_only_witness :
  let fs : gmap string image :=
    {[ "red.png" := Image_new 12 8 (255, 0, 0); "green.png" := Image_new 12 8 (0, 255, 2) ]} in
  stego_extract "red.png" (Text "123") fs = stego_extract "green.png" (Text "123") fs.
Proof.
  intros fs.
  apply (stego_extract_reads_blue_bits_only fs fs "red.png" "green.png" (Text "123")
           (Image_new 12 8 (255, 0, 0)) (Image_new 12 8 (0, 255, 2)));
    reflexivity.
Defined.

(** ** More on clearing *)

Lemma load_clean_pixels (img : image) (x y : nat) :
  load (clean_pixels img) x y =
  if decide (y < height img /\ x < width img)%nat
  then clear_bit (load img x y) else load img x y.
Proof.
  unfold clean_pixels. cbn [load]. rewrite clean_rows_spec.
  repeat case_decide; try lia; reflexivity.
Qed.

Lemma clear_bit_clear_bit (p : pixel) : clear_bit (clear_bit p) = clear_bit p.
Proof.
  destruct p as [[r g] b]. unfold clear_bit. f_equal.
  now rewrite <- Z.land_assoc, Z.land_diag.
Qed.

(** X17: clearing is idempotent: [clean_lsb] on an image it has cleaned
    leaves every pixel as it is. *)
Theorem clean_pixels_idempotent (img : image) (x y : nat) :
  load (clean_pixels (clean_pixels img)) x y = load (clean_pixels img) x y.
Proof.
  rewrite !load_clean_pixels. cbn [width height clean_pixels].
  case_decide; [apply clear_bit_clear_bit | reflexivity].
Qed.

(** X18: what [clean_lsb] does to a pixel of the image: red and green are
    kept, and blue loses its lowest bit and nothing else
    ([b' == 2 * (b // 2)]), so that it goes down by at most 1 and stays a
    channel value. *)
Theorem clean_pixels_frame (img : image) (x y : nat) :
  (x < width img)%nat -> (y < height img)%nat ->
  let p := load img x y in
  let p' := load (clean_pixels img) x y in
  red p' = red p /\ green p' = green p /\
  blue p' = 2 * (blue p / 2) /\
  (0 <= blue p < 256 -> 0 <= blue p' < 256 /\ blue p - 1 <= blue p' <= blue p).
Proof.
  intros Hx Hy. cbn zeta. rewrite load_clean_pixels.
  case_decide; [|lia].
  destruct (load img x y) as [[r g] b]. unfold red, green, blue, clear_bit.
  cbn [fst snd]. rewrite land_lnot_1. repeat split; try reflexivity;
    Z.to_euclidean_division_equations; lia.
Qed.

Lemma clean_pixels_frame_witness :
  (3 < width dark_carrier)%nat /\ (2 < height dark_carrier)%nat /\
  load (clean_pixels dark_carrier) 3%nat 2%nat = (10, 20, 30).
Proof.
  assert (Hx : (3 < width dark_carrier)%nat) by (apply Nat.ltb_lt; reflexivity).
  assert (Hy : (2 < height dark_carrier)%nat) by (apply Nat.ltb_lt; reflexivity).
  split; [exact Hx|]. split; [exact Hy|].
  destruct (clean_pixels_frame dark_carrier 3 2 Hx Hy) as (Hr & Hg & Hb & _).
  destruct (load (clean_pixels dark_carrier) 3%nat 2%nat) as [[r g] b].
  cbn in Hr, Hg, Hb. now subst.
Defined.



(** ** The [clean] command over several files *)

Section Batch.
Context (img_save : saver).




Lemma interactive_clean_app (tasks1 tasks2 : list (string * string)) :
  forall fs : gmap string image,
    interactive_clean img_save (tasks1 ++ tasks2) fs =
    match interactive_clean img_save tasks1 fs with
    | (Returns _, fs1) => interactive_clean img_save tasks2 fs1
    | (Raises e, fs1) => (Raises e, fs1)
    end.
Proof.
  induction tasks1 as [|[i o] tasks1 IH]; intros fs; [reflexivity|].
  cbn [app interactive_clean].
  destruct (clean_lsb img_save i o fs) as [[u|e] fs']; [apply IH | reflexivity].
Qed.

End Batch.




(** X21: in the interactive mode, unlike the [clean] command, the first
    file that cannot be opened ends the batch: the tasks before it have been
    carried out, it raises, and the tasks after it are not run. *)
Theorem interactive_clean_first_failure (img_save : saver)
    (done rest : list (string * string))
    (in_path out_path : string) (fs fs1 : gmap string image) :
  interactive_clean img_save done fs = (Returns tt, fs1) ->
  fs1 !! in_path = None ->
  interactive_clean img_save (done ++ (in_path, out_path) :: rest) fs =
  (Raises FileNotFoundError, fs1).
Proof.
  intros Hdone Hgone. rewrite interactive_clean_app, Hdone.
  cbn [interactive_clean]. unfold clean_lsb. now rewrite Hgone.
Qed.

Lemma interactive_clean_first_failure_witness :
  exists fs1,
    interactive_clean png_save [("in.png", "out/in.png")]%string test_files
    = (Returns tt, fs1) /\
    fs1 !! "gone.png" = None /\
    interactive_clean png_save three_tasks test_files = (Raises FileNotFoundError, fs1) /\
    fs1 !! "out/copy.png" = None.
Proof.
  eexists. split; [reflexivity|]. split; [reflexivity|]. split; [|reflexivity].
  apply (interactive_clean_first_failure png_save [("in.png", "out/in.png")]%string
           [("in.png", "out/copy.png")]%string "gone.png" "out/gone.png");
    reflexivity.
Defined.

(** ** [get_hash] *)

Lemma take_nil_inv (rest : list Z) (n : nat) : take (S n) rest = [] -> rest = [].
Proof. destruct rest; [reflexivity | discriminate]. Qed.

(** With fuel above the length of the file the blocks read make up the
    whole file: the empty read that ends the loop is reached. *)
Lemma concat_read_blocks (fuel : nat) :
  forall rest : list Z,
    (length rest < fuel)%nat -> concat (read_blocks fuel rest) = rest.
Proof.
  induction fuel as [|fuel IH]; intros rest Hfuel; [lia|].
  cbn [read_blocks]. destruct (take 4096 rest) as [|b block] eqn:Hblock.
  - symmetry. exact (take_nil_inv rest 4095 Hblock).
  - cbn [concat]. rewrite IH.
    + rewrite <- Hblock. apply take_drop.
    + rewrite length_drop. destruct rest; [discriminate Hblock|].
      cbn [length] in *. lia.
Qed.

Lemma read_blocks_nonempty (fuel : nat) (rest : list Z) :
  rest <> [] -> read_blocks (S fuel) rest <> [].
Proof.
  intros Hrest. cbn [read_blocks].
  destruct (take 4096 rest) as [|b block] eqn:Hblock; [|discriminate].
  apply (take_nil_inv rest 4095) in Hblock. contradiction.
Qed.

Lemma hash_blocks_spec (hexdigest : list Z -> string) (blocks : list (list Z)) :
  forall (fed : list Z) (sha256 : option string),
    blocks <> [] ->
    hash_blocks hexdigest blocks fed sha256 = Some (hexdigest (fed ++ concat blocks)).
Proof.
  induction blocks as [|block blocks IH]; intros fed sha256 Hne; [contradiction|].
  cbn [hash_blocks concat]. destruct blocks as [|block' blocks].
  - cbn [hash_blocks concat]. now rewrite app_nil_r.
  - rewrite IH by discriminate. now rewrite <- app_assoc.
Qed.

(** X22: on a file that is there and not empty, [get_hash] returns the
    digest of the whole content of the file: reading it in blocks of 4096
    bytes changes nothing to what is hashed. *)
Theorem get_hash_whole_file (hexdigest : list Z -> string) (file_path : string)
    (disk : gmap string (list Z)) (content : list Z) :
  disk !! file_path = Some content -> content <> [] ->
  get_hash hexdigest file_path disk = Digest (hexdigest content).
Proof.
  intros Hopen Hne. unfold get_hash. rewrite Hopen.
  rewrite hash_blocks_spec by now apply read_blocks_nonempty.
  rewrite concat_read_blocks by lia. reflexivity.
Qed.

Lemma get_hash_whole_file_witness :
  test_disk !! "data.bin" = Some (replicate 5000 7) /\
  replicate 5000 7 <> [] /\
  get_hash toy_digest "data.bin" test_disk = Digest (toy_digest (replicate 5000 7)).
Proof.
  assert (H : test_disk !! "data.bin" = Some (replicate 5000 7)) by reflexivity.
  assert (H' : replicate 5000 7 <> []) by discriminate.
  split; [exact H|]. split; [exact H'|].
  exact (get_hash_whole_file toy_digest "data.bin" test_disk _ H H').
Defined.

(** X23: on an empty file the body of the loop of [get_hash] never runs,
    [sha256] is never assigned, and [return sha256] raises
    [UnboundLocalError]: no digest is returned. *)
Theorem get_hash_empty_file (hexdigest : list Z -> string) (file_path : string)
    (disk : gmap string (list Z)) :
  disk !! file_path = Some [] ->
  get_hash hexdigest file_path disk = UnboundLocalError.
Proof. intros Hopen. unfold get_hash. now rewrite Hopen. Qed.

Lemma get_hash_empty_file_witness :
  test_disk !! "empty.bin" = Some [] /\
  get_hash toy_digest "empty.bin" test_disk = UnboundLocalError.
Proof.
  assert (H : test_disk !! "empty.bin" = Some []) by reflexivity.
  split; [exact H | exact (get_hash_empty_file toy_digest "empty.bin" test_disk H)].
Defined.

(** ** Clearing what was hidden *)

Lemma clear_bit_put_bit (p : pixel) (bit : Z) :
  bit = 0 \/ bit = 1 -> clear_bit (put_bit p bit) = clear_bit p.
Proof.
  intros Hbit. destruct p as [[r g] b]. unfold clear_bit, put_bit. f_equal.
  rewrite (land_lnot_1 b), lor_even_bit by exact Hbit. rewrite !land_lnot_1.
  destruct Hbit as [-> | ->]; Z.to_euclidean_division_equations; lia.
Qed.

(** X25: clearing leaves no trace of what was hidden: [clean_lsb] on the
    image that the loops of [stego_hide] produced gives, pixel for pixel,
    the image that [clean_lsb] gives on the carrier itself. *)
Theorem clean_pixels_hide_pixels (img : image) (bits : list Z) (x y : nat) :
  bits_ok bits ->
  load (clean_pixels (hide_pixels bits img)) x y = load (clean_pixels img) x y.
Proof.
  intros Hok. rewrite !load_clean_pixels. cbn [width height hide_pixels].
  rewrite load_hide_pixels.
  repeat case_decide; try lia; try reflexivity.
  apply clear_bit_put_bit. apply bits_ok_lookup_total; [exact Hok | lia].
Qed.

Lemma clean_pixels_hide_pixels_witness :
  bits_ok (bytes_to_bits stop_marker) /\
  load (clean_pixels (hide_pixels (bytes_to_bits stop_marker) dark_carrier)) 1%nat 0%nat =
  load (clean_pixels dark_carrier) 1%nat 0%nat.
Proof.
  assert (H : bits_ok (bytes_to_bits stop_marker)) by apply bits_ok_bytes_to_bits.
  split; [exact H | exact (clean_pixels_hide_pixels dark_carrier _ 1 0 H)].
Defined.
